(** * pw_protobuf/size_report/decoder_incremental.cc

    A shallow embedding of the size-report program: the handler class
    [TestDecodeHandler] with its [ProcessField] callback, the fixed buffer
    [encoded_proto] and [main].

    The decoder class, [pw::Status] and [BloatThisBinary] are declared in
    headers that are not among the sources.  The handler is therefore
    embedded over an abstract decoder (section [Callback]); the wire-format
    decoder of module [Wire] is modelled from the specification and is only
    used where a statement depends on what the decoder does with the bytes. *)

From Stdlib Require Import ZArith List Bool Lia.
From Stdlib.Strings Require Import Byte.
Import ListNotations.
Open Scope Z_scope.

(** ** Status values *)

(** Modelled from the spec: [pw::Status] is declared in a header outside the
    sources.  The program only builds [pw::Status::OK] and asks [ok()], so
    a status is either [OK] or some other code, which is never zero. *)
Inductive Status : Type :=
| OK
| NotOk (code : positive).

Definition ok (s : Status) : bool :=
  match s with
  | OK => true
  | NotOk _ => false
  end.

Definition FAILED_PRECONDITION : Status := NotOk 9.
Definition DATA_LOSS : Status := NotOk 15.

(** ** Integers of the program *)

(** Conversion of an unsigned value to [int32_t]: the low 32 bits, read as
    two's complement. *)
Definition to_int32 (z : Z) : Z :=
  let w := Z.land z (Z.ones 32) in
  if Z.testbit w 31 then w - 2 ^ 32 else w.

(** ** The handler object *)

(** The two [int32_t] members of [TestDecodeHandler]. *)
Record TestDecodeHandler : Type := mkHandler {
  test_int32 : Z;
  test_sint32 : Z
}.

(** The default member initialisers: [int32_t test_int32 = 0;] and
    [int32_t test_sint32 = 0;]. *)
Definition TestDecodeHandler_new : TestDecodeHandler :=
  {| test_int32 := 0; test_sint32 := 0 |}.

(** The [int32_t] objects of the program one can take the address of:
    [&test_int32] and [&test_sint32]. *)
Inductive Member : Type :=
| m_test_int32
| m_test_sint32.

Definition Member_eqb (a b : Member) : bool :=
  match a, b with
  | m_test_int32, m_test_int32 => true
  | m_test_sint32, m_test_sint32 => true
  | _, _ => false
  end.

Definition load (m : Member) (h : TestDecodeHandler) : Z :=
  match m with
  | m_test_int32 => test_int32 h
  | m_test_sint32 => test_sint32 h
  end.

Definition store (m : Member) (v : Z) (h : TestDecodeHandler)
  : TestDecodeHandler :=
  match m with
  | m_test_int32 => {| test_int32 := v; test_sint32 := test_sint32 h |}
  | m_test_sint32 => {| test_int32 := test_int32 h; test_sint32 := v |}
  end.

(** An [int*]: null, or the address of one of the members. *)
Inductive int_ptr : Type :=
| null
| addr_of (m : Member).

(** The object an [int*] points to, if any. *)
Definition pointee (p : int_ptr) : option Member :=
  match p with
  | null => None
  | addr_of m => Some m
  end.

(** ** The callback, over an abstract decoder *)

(** What a typed read hands back: its status, the value it left in [*out]
    (if it stored one) and the decoder after the call. *)
Record ReadResult (D : Type) : Type := mkRead {
  read_status : Status;
  read_out : option Z;
  read_next : D
}.
Arguments mkRead {D} _ _ _.
Arguments read_status {D} _.
Arguments read_out {D} _.
Arguments read_next {D} _.

(** The part of [pw::protobuf::Decoder] the callback uses: the two typed
    reads [ReadInt32(field_number, out)] and [ReadSint32(field_number, out)].
    The decoder's own state has type [D]. *)
Class DecoderReads (D : Type) : Type := {
  ReadInt32 : D -> Z -> ReadResult D;
  ReadSint32 : D -> Z -> ReadResult D
}.

(** The state the callback runs in: the decoder it is handed, the handler
    object, and the record of the stores made to the handler's members (a
    ghost trace: it never influences the run). *)
Record World (D : Type) : Type := mkWorld {
  decoder : D;
  handler : TestDecodeHandler;
  stores : list (Member * Z)
}.
Arguments mkWorld {D} _ _ _.
Arguments decoder {D} _.
Arguments handler {D} _.
Arguments stores {D} _.

Definition M (D A : Type) : Type := World D -> A * World D.

Definition ret {D A : Type} (a : A) : M D A := fun w => (a, w).

Definition bind {D A B : Type} (c : M D A) (k : A -> M D B) : M D B :=
  fun w => let (a, w') := c w in k a w'.

Declare Scope cb_scope.
Delimit Scope cb_scope with cb.
Notation "x <- c ;; k" := (bind c (fun x => k))
  (at level 61, c at next level, right associativity) : cb_scope.
Notation "c ;; k" := (bind c (fun _ => k))
  (at level 61, right associativity) : cb_scope.

(** [if (c) { body }] *)
Definition when {D : Type} (c : bool) (body : M D unit) : M D unit :=
  if c then body else ret tt.

(** [*p = v] for [p] the address of a member. *)
Definition assign {D : Type} (m : Member) (v : Z) : M D unit :=
  fun w => (tt, {| decoder := decoder w;
                   handler := store m v (handler w);
                   stores := stores w ++ [(m, v)] |}).

(** A call [decoder->Read(field_number, &member)]: the decoder moves to its
    next state and the value the read left in [*out], if any, lands in the
    member. *)
Definition call_read {D : Type} (read : D -> Z -> ReadResult D)
    (field_number : Z) (out : Member) : M D Status :=
  fun w =>
    let r := read (decoder w) field_number in
    let w1 := {| decoder := read_next r;
                 handler := handler w;
                 stores := stores w |} in
    match read_out r with
    | Some v => (read_status r, snd (assign out v w1))
    | None => (read_status r, w1)
    end.

Section Callback.

Context {D : Type} `{DecoderReads D}.

Local Open Scope cb_scope.

(** [TestDecodeHandler::ProcessField]. *)
Definition ProcessField (field_number : Z) : M D Status :=
  match field_number with
  | 1 =>
      st <- call_read ReadInt32 field_number m_test_int32 ;;
      when (negb (ok st)) (assign m_test_int32 0)
  | 2 =>
      st <- call_read ReadSint32 field_number m_test_sint32 ;;
      when (negb (ok st)) (assign m_test_sint32 0)
  | 3 =>
      st <- call_read ReadInt32 field_number m_test_int32 ;;
      when (negb (ok st)) (assign m_test_int32 0)
  | 4 =>
      st <- call_read ReadInt32 field_number m_test_int32 ;;
      when (negb (ok st)) (assign m_test_int32 0)
  | 5 =>
      st <- call_read ReadInt32 field_number m_test_int32 ;;
      when (negb (ok st)) (assign m_test_int32 0)
  | 6 =>
      st <- call_read ReadSint32 field_number m_test_sint32 ;;
      when (negb (ok st)) (assign m_test_sint32 0)
  | 7 =>
      st <- call_read ReadSint32 field_number m_test_sint32 ;;
      when (negb (ok st)) (assign m_test_sint32 0)
  | _ => ret tt
  end ;;
  ret OK.

End Callback.

(** ** The table the specification describes *)

(** The mapping as the specification words it: field numbers 1, 3, 4 and 5
    go to [test_int32], field numbers 2, 6 and 7 go to [test_sint32], and no
    other field number has a slot. *)
Definition spec_member_of_field (field_number : Z) : option Member :=
  if existsb (Z.eqb field_number) [1; 3; 4; 5] then Some m_test_int32
  else if existsb (Z.eqb field_number) [2; 6; 7] then Some m_test_sint32
  else None.

Section SpecTable.

Context {D : Type} `{DecoderReads D}.

Local Open Scope cb_scope.

(** The typed read the specification pairs with each slot. *)
Definition spec_read_of_member (m : Member) : D -> Z -> ReadResult D :=
  match m with
  | m_test_int32 => ReadInt32
  | m_test_sint32 => ReadSint32
  end.

(** The callback as a table lookup: read into the slot of the field
    number, write zero there when the read fails, and answer [OK]. *)
Definition spec_dispatch (field_number : Z) : M D Status :=
  match spec_member_of_field field_number with
  | Some m =>
      st <- call_read (spec_read_of_member m) field_number m ;;
      when (negb (ok st)) (assign m 0) ;;
      ret OK
  | None => ret OK
  end.

(** A decode pass as the handler sees it: the decoder calls
    [ProcessField] once for every field it meets, each time in some state
    of its own.  The pass is the list of those calls. *)
Fixpoint decode_pass (calls : list (D * Z)) (h : TestDecodeHandler)
  : TestDecodeHandler :=
  match calls with
  | [] => h
  | (d, field_number) :: rest =>
      decode_pass rest
        (handler (snd (ProcessField field_number
                         {| decoder := d; handler := h; stores := [] |})))
  end.

End SpecTable.

(** Whether the table sends [field_number] to member [m]. *)
Definition field_targets (m : Member) (field_number : Z) : bool :=
  match spec_member_of_field field_number with
  | Some m' => Member_eqb m' m
  | None => false
  end.

(** How many stores of a trace went to member [m]. *)
Definition updates (m : Member) (log : list (Member * Z)) : nat :=
  length (filter (fun e => Member_eqb (fst e) m) log).

Section Settling.

Context {D : Type} `{DecoderReads D}.

(** What the callback leaves in the member of a field number after the
    typed read [r]: the value the read stored when it succeeded, zero when
    it failed; nothing new when it succeeded without storing. *)
Definition settled_value (r : ReadResult D) : option Z :=
  if ok (read_status r) then read_out r else Some 0.

End Settling.

(** ** The fixed buffer *)

(** [encoded_proto]: the bytes [0x08, 0x2a, 0x10, 0x19]. *)
Definition encoded_proto : list byte := [x08; x2a; x10; x19].

(** ** The decoder *)

Module Wire.

Definition byte_val (b : byte) : Z := Z.of_N (Byte.to_N b).

(** Modelled from the spec: varint parsing, which the decoder library
    (outside the sources) performs.  Seven payload bits per byte, least
    significant group first; the top bit of a byte says another byte
    follows.  A 64-bit value takes at most ten bytes.  The result is the
    value and the bytes after it; [None] when the bytes end early or the
    varint is too long. *)
Fixpoint varint_from (limit : nat) (shift : Z) (bs : list byte)
  : option (Z * list byte) :=
  match limit with
  | O => None
  | S limit' =>
      match bs with
      | [] => None
      | b :: rest =>
          let group := Z.shiftl (Z.land (byte_val b) 127) shift in
          if Z.testbit (byte_val b) 7 then
            match varint_from limit' (shift + 7) rest with
            | Some (high, rest') => Some (Z.lor group high, rest')
            | None => None
            end
          else Some (group, rest)
      end
  end.

Definition varint_decode (bs : list byte) : option (Z * list byte) :=
  match varint_from 10 0 bs with
  | Some (v, rest) => Some (Z.land v (Z.ones 64), rest)
  | None => None
  end.

(** Modelled from the spec: zigzag decoding (glossary), the inverse of the
    map that sends signed values to unsigned ones so that values of small
    magnitude stay small: [(n >> 1) ^ -(n & 1)]. *)
Definition zigzag_decode (n : Z) : Z :=
  Z.lxor (Z.shiftr n 1) (- Z.land n 1).

(** Modelled from the spec: the wire types a tag can carry ("tag/wire-type
    parsing"), with the numbers of the protobuf encoding. *)
Definition kVarint : Z := 0.
Definition kFixed64 : Z := 1.
Definition kDelimited : Z := 2.
Definition kFixed32 : Z := 5.

(** Modelled from the spec: tag parsing (glossary: the tag precedes an
    encoded value and says which field it is).  The tag is a varint whose
    low three bits are the wire type and whose other bits are the field
    number, a [uint32_t]. *)
Definition read_key (bs : list byte) : option (Z * Z * list byte) :=
  match varint_decode bs with
  | Some (key, rest) =>
      Some (Z.land (Z.shiftr key 3) (Z.ones 32), Z.land key 7, rest)
  | None => None
  end.

(** Modelled from the spec: a "bounds-checked streaming read": the cursor
    moves over [n] bytes only when that many are left. *)
Definition advance (n : nat) (bs : list byte) : option (list byte) :=
  if (n <=? length bs)%nat then Some (skipn n bs) else None.

(** Modelled from the spec: the bytes after the value of a field of the
    given wire type; [None] on malformed input. *)
Definition skip_value (wire_type : Z) (bs : list byte)
  : option (list byte) :=
  match wire_type with
  | 0 => match varint_decode bs with
         | Some (_, rest) => Some rest
         | None => None
         end
  | 1 => advance 8 bs
  | 2 => match varint_decode bs with
         | Some (len, rest) => advance (Z.to_nat len) rest
         | None => None
         end
  | 5 => advance 4 bs
  | _ => None
  end.

(** Modelled from the spec: the decoder type of the library, which is
    outside the sources: "a decoder type exposing a handler-registration
    method and a decode-from-byte-span method, plus per-type scalar read
    operations that return a success/failure result".  The state is
    whether a handler is registered and the bytes not yet consumed;
    [dispatched] is a ghost record of the field numbers handed to the
    callback. *)
Record Decoder : Type := mkDecoder {
  handler_set : bool;
  proto_ : list byte;
  dispatched : list Z
}.

(** Modelled from the spec: [pw::protobuf::Decoder decoder;], a decoder
    with no handler and no bytes. *)
Definition Decoder_new : Decoder :=
  {| handler_set := false; proto_ := []; dispatched := [] |}.

(** Modelled from the spec: [set_handler(&handler)], the
    handler-registration method. *)
Definition set_handler (d : Decoder) : Decoder :=
  {| handler_set := true; proto_ := proto_ d; dispatched := dispatched d |}.

Definition with_proto (bs : list byte) (d : Decoder) : Decoder :=
  {| handler_set := handler_set d; proto_ := bs;
     dispatched := dispatched d |}.

(** Modelled from the spec: a typed scalar read of a varint field.  It
    succeeds when the field at the cursor has the asked-for number and the
    varint wire type and its value is well formed: the value is handed to
    [convert], stored in [*out], and the cursor moves past the field.
    Otherwise it reports failure, stores nothing and leaves the cursor
    where it was. *)
Definition read_varint_field (convert : Z -> Z) (d : Decoder)
    (field_number : Z) : ReadResult Decoder :=
  match read_key (proto_ d) with
  | Some (number, wire_type, rest) =>
      if (number =? field_number) && (wire_type =? kVarint) then
        match varint_decode rest with
        | Some (v, rest') => mkRead OK (Some (convert v)) (with_proto rest' d)
        | None => mkRead DATA_LOSS None d
        end
      else mkRead FAILED_PRECONDITION None d
  | None => mkRead FAILED_PRECONDITION None d
  end.

(** Modelled from the spec: the two typed reads the callback uses.  An
    int32 is the varint cut to 32 bits; a sint32 is zigzag-decoded first. *)
#[global] Instance Decoder_reads : DecoderReads Decoder := {
  ReadInt32 := read_varint_field to_int32;
  ReadSint32 := read_varint_field (fun v => to_int32 (zigzag_decode v))
}.

(** Modelled from the spec: the decoder steps over the field at the
    cursor, tag and value. *)
Definition SkipField (d : Decoder) : option Decoder :=
  match read_key (proto_ d) with
  | Some (_, wire_type, rest) =>
      match skip_value wire_type rest with
      | Some rest' => Some (with_proto rest' d)
      | None => None
      end
  | None => None
  end.

Definition note_dispatch (field_number : Z) (w : World Decoder)
  : World Decoder :=
  {| decoder := {| handler_set := handler_set (decoder w);
                   proto_ := proto_ (decoder w);
                   dispatched := dispatched (decoder w) ++ [field_number] |};
     handler := handler w;
     stores := stores w |}.

Definition with_decoder (d : Decoder) (w : World Decoder) : World Decoder :=
  {| decoder := d; handler := handler w; stores := stores w |}.

(** Modelled from the spec: the decode loop, "buffer -> decoder -> handler
    -> two integers".  While bytes remain, the decoder parses the tag at
    the cursor and hands its field number to the handler's [ProcessField];
    a callback status other than [OK] ends the decode with that status;
    if the callback did not consume the field (its typed read failed, or
    it made none) the decoder steps over the field and goes on with the
    next one.  Malformed input ends the decode with [DATA_LOSS].  Every
    round consumes at least one byte, so [fuel] above the number of bytes
    is never used up; [None] is the answer of a run that is. *)
Fixpoint Decode_loop (fuel : nat) (w : World Decoder)
  : option (Status * World Decoder) :=
  match fuel with
  | O => None
  | S fuel' =>
      match proto_ (decoder w) with
      | [] => Some (OK, w)
      | _ :: _ =>
          match read_key (proto_ (decoder w)) with
          | None => Some (DATA_LOSS, w)
          | Some (field_number, _, _) =>
              let (st, w1) := ProcessField field_number
                                (note_dispatch field_number w) in
              if negb (ok st) then Some (st, w1)
              else if (length (proto_ (decoder w1))
                       <? length (proto_ (decoder w)))%nat
              then Decode_loop fuel' w1
              else match SkipField (decoder w1) with
                   | Some d2 => Decode_loop fuel' (with_decoder d2 w1)
                   | None => Some (DATA_LOSS, w1)
                   end
          end
      end
  end.

(** Modelled from the spec: [Decode(proto)], the decode-from-byte-span
    method.  Without a registered handler the decode is refused; otherwise
    the loop runs over the given bytes. *)
Definition Decode (proto : list byte) (w : World Decoder)
  : option (Status * World Decoder) :=
  if handler_set (decoder w)
  then Decode_loop (S (length proto))
         (with_decoder (with_proto proto (decoder w)) w)
  else Some (FAILED_PRECONDITION, w).

(** One field of a buffer: its number, its wire type, and how many bytes
    its tag and its value take. *)
Record Field : Type := mkField {
  number : Z;
  wire_type : Z;
  tag_bytes : list byte;
  value_bytes : list byte
}.

(** Modelled from the spec: the fields a buffer encodes, in order, each a
    tag followed by a value; [None] for a buffer that is not a sequence of
    well-formed fields. *)
Fixpoint fields_of (fuel : nat) (bs : list byte) : option (list Field) :=
  match fuel with
  | O => None
  | S fuel' =>
      match bs with
      | [] => Some []
      | _ :: _ =>
          match read_key bs with
          | Some (n, wt, rest) =>
              match skip_value wt rest with
              | Some rest' =>
                  match fields_of fuel' rest' with
                  | Some fs =>
                      Some ({| number := n; wire_type := wt;
                               tag_bytes :=
                                 firstn (length bs - length rest) bs;
                               value_bytes :=
                                 firstn (length rest - length rest') rest |}
                              :: fs)
                  | None => None
                  end
              | None => None
              end
          | None => None
          end
      end
  end.

Definition fields (bs : list byte) : option (list Field) :=
  fields_of (S (length bs)) bs.

End Wire.

(** ** The program *)

(** The variable at namespace scope: [int* volatile non_optimizable_pointer;].
    It has static storage duration and no initialiser, so it starts out
    zero-initialised, which for a pointer is the null pointer. *)
Record Globals : Type := mkGlobals {
  non_optimizable_pointer : int_ptr
}.

Definition Globals_start : Globals :=
  {| non_optimizable_pointer := null |}.

(** Modelled from the spec: [BloatThisBinary], defined outside the sources,
    is "invoked with no arguments, no return value consumed"; it is handed
    none of the objects of this file and shows up as an event only.  The
    other thing [main] does that is visible from outside is the store
    statement through the volatile pointer, recorded with the pointer value
    it uses and the value it is to write. *)
Inductive Event : Type :=
| ev_BloatThisBinary
| ev_store (p : int_ptr) (v : Z).

(** How a run of [main] ends: it returns a value, or it executes a store
    through a null pointer, which is undefined behaviour: nothing after that
    store is defined and [return] is not reached. *)
Inductive Exit : Type :=
| returns (code : Z)
| undefined_null_store.

(** A run of [main]: how it ended, the locals and the globals when it
    ended, and the events up to there. *)
Record Outcome (D : Type) : Type := mkOutcome {
  exit : Exit;
  world : World D;
  globals : Globals;
  events : list Event
}.
Arguments mkOutcome {D} _ _ _ _.
Arguments exit {D} _.
Arguments world {D} _.
Arguments globals {D} _.
Arguments events {D} _.

(** [*p = v]: the store lands in the object [p] points to; a null pointer
    points to no object of the program. *)
Definition store_through (p : int_ptr) (v : Z) (h : TestDecodeHandler)
  : TestDecodeHandler :=
  match pointee p with
  | Some m => store m v h
  | None => h
  end.

Section Main.

(** The decoder class as [main] uses it: default construction,
    [set_handler] and [Decode].  A [Decode] that does not return is
    [None]. *)
Context {D : Type}.
Variable Decoder_new : D.
Variable set_handler : D -> D.
Variable Decode : list byte -> World D -> option (Status * World D).

(** The locals of [main] when it calls [Decode]:
    [pw::protobuf::Decoder decoder; TestDecodeHandler handler;
     decoder.set_handler(&handler);] *)
Definition world_at_decode : World D :=
  let w := {| decoder := Decoder_new;
              handler := TestDecodeHandler_new;
              stores := [] |} in
  {| decoder := set_handler (decoder w);
     handler := handler w;
     stores := stores w |}.

Definition main (g : Globals) : option (Outcome D) :=
  (* pw::bloat::BloatThisBinary(); *)
  let ev := [ev_BloatThisBinary] in
  (* decoder, handler, set_handler *)
  let w := world_at_decode in
  (* decoder.Decode(pw::as_bytes(pw::span(encoded_proto))); *)
  match Decode encoded_proto w with
  | None => None
  | Some (_, w) =>
      (* *non_optimizable_pointer = handler.test_int32 + handler.test_sint32; *)
      let p := non_optimizable_pointer g in
      (* the sum is an [int]: kept to 32 bits *)
      let v := to_int32 (test_int32 (handler w) + test_sint32 (handler w)) in
      let w := {| decoder := decoder w;
                  handler := store_through p v (handler w);
                  stores := stores w ++ match pointee p with
                                        | Some m => [(m, v)]
                                        | None => []
                                        end |} in
      let ev := ev ++ [ev_store p v] in
      match pointee p with
      | Some _ =>
          (* return 0; *)
          Some {| exit := returns 0; world := w; globals := g;
                  events := ev |}
      | None =>
          (* the store went through a null pointer *)
          Some {| exit := undefined_null_store; world := w; globals := g;
                  events := ev |}
      end
  end.

End Main.

(** The world [main] hands to the decoder of module [Wire]. *)
Definition world_before_decode : World Wire.Decoder :=
  world_at_decode Wire.Decoder_new Wire.set_handler.

(** The same world once [Decode] has taken the fixed buffer. *)
Definition world_before_decode_fixed : World Wire.Decoder :=
  Wire.with_decoder
    (Wire.with_proto encoded_proto (decoder world_before_decode))
    world_before_decode.

(** A world in which both members hold something other than zero and the
    decoder sits before a field 1 of the fixed32 wire type, which
    [ReadInt32] refuses. *)
Definition world_bad_field_1 : World Wire.Decoder :=
  {| decoder := {| Wire.handler_set := true;
                   Wire.proto_ := [x0d; x01; x00; x00; x00; x10; x19];
                   Wire.dispatched := [] |};
     handler := {| test_int32 := 7; test_sint32 := 9 |};
     stores := [] |}.

(** The program with the decoder of module [Wire]. *)
Definition main_wire : option (Outcome Wire.Decoder) :=
  main Wire.Decoder_new Wire.set_handler Wire.Decode Globals_start.

(** * Properties of the callback *)

Section CallbackFacts.

Context {D : Type} `{DecoderReads D}.

Ltac run_callback :=
  unfold spec_dispatch, bind, call_read, when, assign, ret; simpl.

(** The seven-case switch is the table: on every field number the callback
    does what the table lookup does. *)
Lemma ProcessField_table (field_number : Z) (w : World D) :
  ProcessField field_number w = spec_dispatch field_number w.
Proof.
  destruct field_number as [|p|p]; try reflexivity.
  repeat (destruct p as [p|p|]; try reflexivity);
    cbv [ProcessField spec_dispatch spec_member_of_field existsb Z.eqb
         Pos.eqb orb spec_read_of_member bind];
    match goal with
    | |- context [call_read ?r ?n ?m w] => destruct (call_read r n m w)
    end;
    match goal with
    | |- context [when ?c ?b ?x] => destruct (when c b x)
    end;
    reflexivity.
Qed.

(** A field number is in the table exactly when it is one of 1..7. *)
Lemma spec_member_of_field_domain (field_number : Z) :
  spec_member_of_field field_number <> None <-> 1 <= field_number <= 7.
Proof.
  split.
  - intros Hin.
    destruct (Z_le_gt_dec 1 field_number) as [Hlo|Hlo];
      [destruct (Z_le_gt_dec field_number 7) as [Hhi|Hhi]; [lia|]|];
      exfalso; apply Hin.
    + destruct field_number as [|p|p]; try lia.
      repeat (destruct p as [p|p|]; try reflexivity; try lia).
    + destruct field_number as [|p|p]; try lia; reflexivity.
  - intros Hr.
    assert (Hc : field_number = 1 \/ field_number = 2 \/ field_number = 3 \/
                 field_number = 4 \/ field_number = 5 \/ field_number = 6 \/
                 field_number = 7) by lia.
    destruct Hc as [->|[->|[->|[->|[->|[->| ->]]]]]]; discriminate.
Qed.

(** Outside the table the callback is the identity on the world. *)
Lemma ProcessField_unmapped (field_number : Z) (w : World D) :
  spec_member_of_field field_number = None ->
  ProcessField field_number w = (OK, w).
Proof.
  intros Hnone. rewrite ProcessField_table. unfold spec_dispatch.
  rewrite Hnone. reflexivity.
Qed.

(** Inside the table the callback is one typed read into the slot and, on
    failure, one store of zero to the same slot. *)
Lemma ProcessField_mapped (field_number : Z) (m : Member) (w : World D) :
  spec_member_of_field field_number = Some m ->
  ProcessField field_number w =
  let r := spec_read_of_member m (decoder w) field_number in
  let h1 := match read_out r with
            | Some v => store m v (handler w)
            | None => handler w
            end in
  let log1 := match read_out r with
              | Some v => stores w ++ [(m, v)]
              | None => stores w
              end in
  if ok (read_status r)
  then (OK, {| decoder := read_next r; handler := h1; stores := log1 |})
  else (OK, {| decoder := read_next r; handler := store m 0 h1;
               stores := log1 ++ [(m, 0)] |}).
Proof.
  intros Hm. rewrite ProcessField_table. unfold spec_dispatch.
  rewrite Hm. run_callback.
  destruct (read_out (spec_read_of_member m (decoder w) field_number));
    simpl;
    destruct (ok (read_status
                    (spec_read_of_member m (decoder w) field_number)));
    reflexivity.
Qed.

Lemma load_store_same (m : Member) (v : Z) (h : TestDecodeHandler) :
  load m (store m v h) = v.
Proof. destruct m; reflexivity. Qed.

Lemma load_store_other (m m' : Member) (v : Z) (h : TestDecodeHandler) :
  m <> m' -> load m' (store m v h) = load m' h.
Proof. destruct m, m'; intros Hne; try reflexivity; congruence. Qed.

Lemma field_targets_false (m : Member) (field_number : Z) :
  field_targets m field_number = false <->
  spec_member_of_field field_number <> Some m.
Proof.
  unfold field_targets.
  destruct (spec_member_of_field field_number) as [m'|].
  - destruct m', m; simpl; split; intros Hx; congruence.
  - split; intros; congruence.
Qed.

(** A call leaves every member alone that the table does not pair with the
    field number, and answers [OK]. *)
Lemma ProcessField_frame_member (field_number : Z) (m : Member)
    (w : World D) :
  spec_member_of_field field_number <> Some m ->
  load m (handler (snd (ProcessField field_number w))) = load m (handler w).
Proof.
  intros Hm.
  destruct (spec_member_of_field field_number) as [m0|] eqn:Hf.
  - assert (Hne : m0 <> m) by congruence.
    rewrite (ProcessField_mapped field_number m0 w Hf). cbv zeta.
    destruct (ok _), (read_out _); simpl;
      rewrite ?load_store_other by exact Hne; reflexivity.
  - rewrite (ProcessField_unmapped field_number w Hf). reflexivity.
Qed.

Lemma ProcessField_status (field_number : Z) (w : World D) :
  fst (ProcessField field_number w) = OK.
Proof.
  destruct (spec_member_of_field field_number) as [m0|] eqn:Hf.
  - rewrite (ProcessField_mapped field_number m0 w Hf). cbv zeta.
    destruct (ok _); reflexivity.
  - rewrite (ProcessField_unmapped field_number w Hf). reflexivity.
Qed.

(** C2: for a field number of the table (1..7), when the typed read paired
    with its member (ReadInt32 for test_int32, ReadSint32 for test_sint32)
    returns a status that is not ok, the callback leaves zero in that member
    and still returns OK, so the decoder is not told to stop. *)
Theorem ProcessField_failed_read_zeroes (field_number : Z) (m : Member)
    (w : World D) :
  spec_member_of_field field_number = Some m ->
  ok (read_status (spec_read_of_member m (decoder w) field_number)) = false ->
  fst (ProcessField field_number w) = OK /\
  load m (handler (snd (ProcessField field_number w))) = 0.
Proof.
  intros Hm Hfail. split; [apply ProcessField_status|].
  rewrite (ProcessField_mapped field_number m w Hm). cbv zeta.
  rewrite Hfail. simpl. apply load_store_same.
Qed.

(** C3: the callback is a fixed mapping from seven field numbers to two
    members.  For field numbers 1, 3, 4 and 5 it calls ReadInt32 with the
    field number and the address of test_int32: the decoder is left as that
    read left it, test_int32 receives what the read stored (zero when the
    read failed) and test_sint32 is not written.  For 2, 6 and 7 it does
    the same with ReadSint32 and test_sint32.  Any other field number
    calls no read and writes neither member. *)
Theorem ProcessField_fixed_mapping (field_number : Z) (w : World D) :
  (In field_number [1; 3; 4; 5] ->
   decoder (snd (ProcessField field_number w))
   = read_next (ReadInt32 (decoder w) field_number) /\
   test_int32 (handler (snd (ProcessField field_number w)))
   = (if ok (read_status (ReadInt32 (decoder w) field_number))
      then match read_out (ReadInt32 (decoder w) field_number) with
           | Some v => v
           | None => test_int32 (handler w)
           end
      else 0) /\
   test_sint32 (handler (snd (ProcessField field_number w)))
   = test_sint32 (handler w)) /\
  (In field_number [2; 6; 7] ->
   decoder (snd (ProcessField field_number w))
   = read_next (ReadSint32 (decoder w) field_number) /\
   test_sint32 (handler (snd (ProcessField field_number w)))
   = (if ok (read_status (ReadSint32 (decoder w) field_number))
      then match read_out (ReadSint32 (decoder w) field_number) with
           | Some v => v
           | None => test_sint32 (handler w)
           end
      else 0) /\
   test_int32 (handler (snd (ProcessField field_number w)))
   = test_int32 (handler w)) /\
  (~ In field_number [1; 2; 3; 4; 5; 6; 7] ->
   decoder (snd (ProcessField field_number w)) = decoder w /\
   handler (snd (ProcessField field_number w)) = handler w /\
   stores (snd (ProcessField field_number w)) = stores w).
Proof.
  split; [|split].
  - intros Hin.
    assert (Hm : spec_member_of_field field_number = Some m_test_int32)
      by (simpl in Hin; destruct Hin as [<-|[<-|[<-|[<-|[]]]]]; reflexivity).
    rewrite (ProcessField_mapped field_number m_test_int32 w Hm).
    cbv zeta. simpl spec_read_of_member.
    destruct (ok _), (read_out _); simpl; repeat split.
  - intros Hin.
    assert (Hm : spec_member_of_field field_number = Some m_test_sint32)
      by (simpl in Hin; destruct Hin as [<-|[<-|[<-|[]]]]; reflexivity).
    rewrite (ProcessField_mapped field_number m_test_sint32 w Hm).
    cbv zeta. simpl spec_read_of_member.
    destruct (ok _), (read_out _); simpl; repeat split.
  - intros Hout.
    assert (Hnone : spec_member_of_field field_number = None).
    { destruct (spec_member_of_field field_number) eqn:Hf; [|reflexivity].
      exfalso. apply Hout.
      assert (Hr : 1 <= field_number <= 7)
        by (apply spec_member_of_field_domain; congruence).
      simpl. lia. }
    rewrite (ProcessField_unmapped field_number w Hnone).
    repeat split.
Qed.

(** C4: whatever the field number and whatever the typed reads return, the
    callback returns pw::Status::OK. *)
Theorem ProcessField_always_OK (field_number : Z) (w : World D) :
  fst (ProcessField field_number w) = OK.
Proof. apply ProcessField_status. Qed.

(** C8: one call changes at most one member.  A member the table does not
    pair with the field number keeps its value, and the call returns OK: so
    1, 3, 4, 5 leave test_sint32 alone, 2, 6, 7 leave test_int32 alone, and
    a field number outside 1..7 leaves both alone. *)
Theorem ProcessField_frame (field_number : Z) (m : Member) (w : World D) :
  field_targets m field_number = false ->
  fst (ProcessField field_number w) = OK /\
  load m (handler (snd (ProcessField field_number w))) = load m (handler w).
Proof.
  intros Hm. split; [apply ProcessField_status|].
  apply ProcessField_frame_member. apply field_targets_false. exact Hm.
Qed.

(** The three cases of the frame property, spelled out. *)
Lemma ProcessField_frame_cases (field_number : Z) (w : World D) :
  (In field_number [1; 3; 4; 5] ->
   test_sint32 (handler (snd (ProcessField field_number w)))
   = test_sint32 (handler w)) /\
  (In field_number [2; 6; 7] ->
   test_int32 (handler (snd (ProcessField field_number w)))
   = test_int32 (handler w)) /\
  (~ 1 <= field_number <= 7 ->
   ProcessField field_number w = (OK, w)).
Proof.
  split; [|split].
  - intros Hin.
    apply (ProcessField_frame_member field_number m_test_sint32).
    simpl in Hin.
    destruct Hin as [<-|[<-|[<-|[<-|[]]]]]; discriminate.
  - intros Hin.
    apply (ProcessField_frame_member field_number m_test_int32).
    simpl in Hin.
    destruct Hin as [<-|[<-|[<-|[]]]]; discriminate.
  - intros Hout. apply ProcessField_unmapped.
    destruct (spec_member_of_field field_number) eqn:Hf; [|reflexivity].
    exfalso. apply Hout. apply spec_member_of_field_domain. congruence.
Qed.

(** Over a whole pass a member keeps its value when no call of the pass
    carries a field number the table pairs with it. *)
Lemma decode_pass_frame (calls : list (D * Z)) (m : Member)
    (h : TestDecodeHandler) :
  existsb (fun c => field_targets m (snd c)) calls = false ->
  load m (decode_pass calls h) = load m h.
Proof.
  revert h. induction calls as [|[d fn] rest IH]; intros h Hnone.
  - reflexivity.
  - simpl in Hnone. apply orb_false_iff in Hnone as [Hfn Hrest].
    simpl. rewrite (IH _ Hrest).
    apply ProcessField_frame_member. apply field_targets_false. exact Hfn.
Qed.

(** C5: the two integers of a fresh handler are zero, and after a decode
    pass (any sequence of callback invocations, in whatever states the
    decoder makes them) a member still holds zero unless some invocation
    carried a field number mapped to it (1, 3, 4, 5 for test_int32;
    2, 6, 7 for test_sint32). *)
Theorem fresh_handler_zero_until_seen (calls : list (D * Z)) (m : Member) :
  existsb (fun c => field_targets m (snd c)) calls = false ->
  test_int32 TestDecodeHandler_new = 0 /\
  test_sint32 TestDecodeHandler_new = 0 /\
  load m (decode_pass calls TestDecodeHandler_new) = 0.
Proof.
  intros Hnone. split; [reflexivity|]. split; [reflexivity|].
  rewrite (decode_pass_frame calls m _ Hnone). destruct m; reflexivity.
Qed.

(** The store trace is a ghost: what a call does to the handler and to the
    decoder does not depend on it. *)
Lemma ProcessField_ignores_log (field_number : Z) (w : World D) :
  let w0 := {| decoder := decoder w; handler := handler w; stores := [] |} in
  handler (snd (ProcessField field_number w))
  = handler (snd (ProcessField field_number w0)) /\
  decoder (snd (ProcessField field_number w))
  = decoder (snd (ProcessField field_number w0)).
Proof.
  cbv zeta.
  destruct (spec_member_of_field field_number) as [m0|] eqn:Hf.
  - rewrite !(ProcessField_mapped field_number m0 _ Hf). cbv zeta. simpl.
    destruct (ok _), (read_out _); split; reflexivity.
  - rewrite !(ProcessField_unmapped field_number _ Hf). split; reflexivity.
Qed.

End CallbackFacts.

(** * Further properties of the callback and of decode passes *)

Section CallbackPasses.

Context {D : Type} `{DecoderReads D}.


(** X2: the callback makes one typed read, with the field number it was
    given: the decoder it leaves behind is the one that read left. *)
Theorem ProcessField_one_read (field_number : Z) (m : Member)
    (w : World D) :
  spec_member_of_field field_number = Some m ->
  decoder (snd (ProcessField field_number w))
  = read_next (spec_read_of_member m (decoder w) field_number).
Proof.
  intros Hm. rewrite (ProcessField_mapped field_number m w Hm).
  cbv zeta. destruct (ok _); reflexivity.
Qed.

Lemma Member_eq_dec (a b : Member) : {a = b} + {a <> b}.
Proof. decide equality. Qed.

(** What a call leaves in a member depends on the handler only through
    that member. *)
Lemma ProcessField_member_local (field_number : Z) (m : Member) (d : D)
    (h1 h2 : TestDecodeHandler) (l1 l2 : list (Member * Z)) :
  load m h1 = load m h2 ->
  load m (handler (snd (ProcessField field_number
                          {| decoder := d; handler := h1; stores := l1 |})))
  = load m (handler (snd (ProcessField field_number
                            {| decoder := d; handler := h2;
                               stores := l2 |}))).
Proof.
  intros Heq.
  destruct (spec_member_of_field field_number) as [m0|] eqn:Hf.
  - destruct (Member_eq_dec m0 m) as [->|Hne].
    + rewrite !(ProcessField_mapped field_number m _ Hf). cbv zeta. simpl.
      destruct (ok _), (read_out _); simpl;
        rewrite ?load_store_same; auto.
    + rewrite !ProcessField_frame_member by congruence. exact Heq.
  - rewrite !(ProcessField_unmapped field_number _ Hf). exact Heq.
Qed.

Lemma decode_pass_app (a b : list (D * Z)) (h : TestDecodeHandler) :
  decode_pass (a ++ b) h = decode_pass b (decode_pass a h).
Proof.
  revert h. induction a as [|[d fn] a IH]; intros h; [reflexivity|].
  simpl. apply IH.
Qed.

Lemma decode_pass_member_local (calls : list (D * Z)) (m : Member) :
  forall h1 h2 : TestDecodeHandler,
    load m h1 = load m h2 ->
    load m (decode_pass calls h1) = load m (decode_pass calls h2).
Proof.
  induction calls as [|[d fn] rest IH]; intros h1 h2 Heq; [exact Heq|].
  simpl. apply IH. apply ProcessField_member_local. exact Heq.
Qed.

(** X4: the two members are decoded independently of each other: in a pass,
    the calls whose field number belongs to the other member (or to none)
    can be left out without changing what a member ends up holding. *)
Theorem decode_pass_own_calls (calls : list (D * Z)) (m : Member)
    (h : TestDecodeHandler) :
  load m (decode_pass calls h)
  = load m (decode_pass
              (filter (fun c => field_targets m (snd c)) calls) h).
Proof.
  revert h. induction calls as [|[d fn] rest IH]; intros h; [reflexivity|].
  simpl. destruct (field_targets m fn) eqn:Ht.
  - simpl. apply IH.
  - rewrite IH. apply decode_pass_member_local.
    apply ProcessField_frame_member. apply field_targets_false. exact Ht.
Qed.

(** X5: the last field wins: when the last call of a pass that belongs to a
    member settles it (its read stored a value, or failed), the member ends
    up with that value, or with zero after a failure, whatever came
    before. *)
Theorem decode_pass_last_call_wins (before after : list (D * Z)) (d : D)
    (field_number : Z) (m : Member) (v : Z) (h : TestDecodeHandler) :
  spec_member_of_field field_number = Some m ->
  existsb (fun c => field_targets m (snd c)) after = false ->
  settled_value (spec_read_of_member m d field_number) = Some v ->
  load m (decode_pass (before ++ (d, field_number) :: after) h) = v.
Proof.
  intros Hm Hafter Hset. rewrite decode_pass_app. simpl.
  rewrite (decode_pass_frame after m _ Hafter).
  rewrite (ProcessField_mapped field_number m _ Hm). cbv zeta. simpl.
  unfold settled_value in Hset.
  destruct (ok _).
  - rewrite Hset. simpl. apply load_store_same.
  - inversion Hset; subst. simpl. apply load_store_same.
Qed.

End CallbackPasses.

(** * Properties of the decoder of module [Wire] *)

Section WireFacts.

Import Wire.

Lemma varint_from_shorter (limit : nat) :
  forall (shift : Z) (bs rest : list byte) (v : Z),
    varint_from limit shift bs = Some (v, rest) ->
    (length rest < length bs)%nat.
Proof.
  induction limit as [|limit IH]; intros shift bs rest v Hdec;
    [discriminate|].
  destruct bs as [|b bs']; [discriminate|].
  cbn [varint_from] in Hdec. cbv zeta in Hdec.
  destruct (Z.testbit (byte_val b) 7).
  - destruct (varint_from limit (shift + 7) bs') as [[high rest']|] eqn:Hrec;
      [|discriminate Hdec].
    inversion Hdec; subst. apply IH in Hrec. simpl. lia.
  - inversion Hdec; subst. simpl. lia.
Qed.

Lemma varint_decode_shorter (bs rest : list byte) (v : Z) :
  varint_decode bs = Some (v, rest) -> (length rest < length bs)%nat.
Proof.
  unfold varint_decode.
  destruct (varint_from 10 0 bs) as [[v0 rest0]|] eqn:Hdec; [|discriminate].
  intros Heq. inversion Heq; subst.
  eapply varint_from_shorter; eassumption.
Qed.

Lemma read_key_shorter (bs rest : list byte) (n wt : Z) :
  read_key bs = Some (n, wt, rest) -> (length rest < length bs)%nat.
Proof.
  unfold read_key.
  destruct (varint_decode bs) as [[key rest0]|] eqn:Hdec; [|discriminate].
  intros Heq. inversion Heq; subst.
  eapply varint_decode_shorter; eassumption.
Qed.

Lemma advance_le (n : nat) (bs rest : list byte) :
  advance n bs = Some rest -> (length rest <= length bs)%nat.
Proof.
  unfold advance. destruct (n <=? length bs)%nat; [|discriminate].
  intros Heq. inversion Heq; subst. rewrite length_skipn. lia.
Qed.

Lemma skip_value_le (wt : Z) (bs rest : list byte) :
  skip_value wt bs = Some rest -> (length rest <= length bs)%nat.
Proof.
  unfold skip_value. intros Hskip.
  destruct wt as [|p|p]; try discriminate.
  - destruct (varint_decode bs) as [[v r]|] eqn:Hdec; [|discriminate].
    inversion Hskip; subst. apply varint_decode_shorter in Hdec. lia.
  - destruct p as [[p|p|]|[p|p|]|]; try discriminate.
    + destruct p; try discriminate. eapply advance_le; eassumption.
    + destruct (varint_decode bs) as [[v r]|] eqn:Hdec; [|discriminate].
      apply varint_decode_shorter in Hdec. apply advance_le in Hskip. lia.
    + eapply advance_le; eassumption.
Qed.

Lemma SkipField_shorter (d d' : Decoder) :
  SkipField d = Some d' ->
  (length (proto_ d') < length (proto_ d))%nat /\
  dispatched d' = dispatched d.
Proof.
  unfold SkipField.
  destruct (read_key (proto_ d)) as [[[n wt] rest]|] eqn:Hkey;
    [|discriminate].
  destruct (skip_value wt rest) as [rest'|] eqn:Hskip; [|discriminate].
  intros Heq. inversion Heq; subst. simpl.
  apply read_key_shorter in Hkey. apply skip_value_le in Hskip.
  split; [lia|reflexivity].
Qed.

(** A typed read either leaves the decoder as it was or moves the cursor
    forward; it never touches the record of dispatched fields. *)
Lemma read_varint_field_next (convert : Z -> Z) (d : Decoder) (fn : Z) :
  let r := read_varint_field convert d fn in
  (read_next r = d \/
   (length (proto_ (read_next r)) < length (proto_ d))%nat) /\
  dispatched (read_next r) = dispatched d.
Proof.
  cbv zeta. unfold read_varint_field.
  destruct (read_key (proto_ d)) as [[[n wt] rest]|] eqn:Hkey;
    [|simpl; auto].
  destruct ((n =? fn) && (wt =? kVarint)); [|simpl; auto].
  destruct (varint_decode rest) as [[v rest']|] eqn:Hdec; [|simpl; auto].
  simpl. split; [right|reflexivity].
  apply read_key_shorter in Hkey. apply varint_decode_shorter in Hdec. lia.
Qed.

Lemma spec_read_next (m : Member) (d : Decoder) (fn : Z) :
  let r := spec_read_of_member m d fn in
  (read_next r = d \/
   (length (proto_ (read_next r)) < length (proto_ d))%nat) /\
  dispatched (read_next r) = dispatched d.
Proof. destruct m; apply read_varint_field_next. Qed.

Lemma ProcessField_cursor (fn : Z) (w : World Decoder) :
  let d' := decoder (snd (ProcessField fn w)) in
  (d' = decoder w \/
   (length (proto_ d') < length (proto_ (decoder w)))%nat) /\
  dispatched d' = dispatched (decoder w).
Proof.
  cbv zeta.
  destruct (spec_member_of_field fn) as [m0|] eqn:Hf.
  - rewrite (ProcessField_mapped fn m0 w Hf). cbv zeta.
    destruct (ok _); simpl; apply spec_read_next.
  - rewrite (ProcessField_unmapped fn w Hf). simpl. auto.
Qed.

(** The decode loop returns: fuel above the number of bytes left is never
    used up. *)
Lemma Decode_loop_total (fuel : nat) :
  forall w : World Decoder,
    (length (proto_ (decoder w)) < fuel)%nat ->
    exists r, Decode_loop fuel w = Some r.
Proof.
  induction fuel as [|fuel IH]; intros w Hfuel; [lia|].
  simpl.
  destruct (proto_ (decoder w)) as [|b bs] eqn:Hbs; [eauto|].
  destruct (read_key (b :: bs)) as [[[fn wt] rest]|] eqn:Hkey; [|eauto].
  pose proof (ProcessField_cursor fn (note_dispatch fn w)) as Hcur.
  cbv zeta in Hcur.
  destruct (ProcessField fn (note_dispatch fn w)) as [st w1] eqn:Hpf.
  simpl in Hcur. rewrite Hbs in Hcur.
  destruct (negb (ok st)); [eauto|].
  destruct (length (proto_ (decoder w1)) <? length (b :: bs))%nat eqn:Hlt.
  - apply IH. apply Nat.ltb_lt in Hlt. lia.
  - destruct (SkipField (decoder w1)) as [d2|] eqn:Hskip; [|eauto].
    apply IH. simpl. apply SkipField_shorter in Hskip as [Hshort _].
    apply Nat.ltb_ge in Hlt. destruct Hcur as [[Heq|Hless] _].
    + rewrite Heq in Hshort. simpl in Hshort. simpl in Hfuel. lia.
    + lia.
Qed.

(** [Decode] returns on every buffer. *)
Lemma Decode_total (proto : list byte) (w : World Decoder) :
  exists r, Decode proto w = Some r.
Proof.
  unfold Decode. destruct (handler_set (decoder w)); [|eauto].
  apply Decode_loop_total. simpl. lia.
Qed.

(** What [Decode] does to the handler is a decode pass: a sequence of
    callback invocations, one for each field number it dispatched. *)
Lemma Decode_loop_is_pass (fuel : nat) :
  forall (w w' : World Decoder) (st : Status),
    Decode_loop fuel w = Some (st, w') ->
    exists calls : list (Decoder * Z),
      handler w' = decode_pass calls (handler w) /\
      dispatched (decoder w') = dispatched (decoder w) ++ map snd calls.
Proof.
  induction fuel as [|fuel IH]; intros w w' st Hrun; [discriminate|].
  simpl in Hrun.
  destruct (proto_ (decoder w)) as [|b bs] eqn:Hbs.
  { inversion Hrun; subst. exists []. simpl. rewrite app_nil_r. auto. }
  destruct (read_key (b :: bs)) as [[[fn wt] rest]|] eqn:Hkey.
  2:{ inversion Hrun; subst. exists []. simpl. rewrite app_nil_r. auto. }
  pose proof (ProcessField_cursor fn (note_dispatch fn w)) as [_ Hdis].
  pose proof (ProcessField_ignores_log fn (note_dispatch fn w)) as [Hh _].
  destruct (ProcessField fn (note_dispatch fn w)) as [st1 w1] eqn:Hpf.
  simpl in Hdis, Hh.
  assert (Hstep : handler w1 =
                  decode_pass [(decoder (note_dispatch fn w), fn)]
                    (handler w)) by exact Hh.
  assert (Hrest : forall w2, handler w2 = handler w1 ->
                    dispatched (decoder w2) = dispatched (decoder w1) ->
                    Decode_loop fuel w2 = Some (st, w') ->
                    exists calls : list (Decoder * Z),
                      handler w' = decode_pass calls (handler w) /\
                      dispatched (decoder w')
                      = dispatched (decoder w) ++ map snd calls).
  { intros w2 Hh2 Hd2 Hrun2.
    destruct (IH _ _ _ Hrun2) as [calls [Hpass Hseen]].
    exists ((decoder (note_dispatch fn w), fn) :: calls). split.
    - rewrite Hpass, Hh2, Hstep. reflexivity.
    - rewrite Hseen, Hd2, Hdis. simpl. rewrite <- app_assoc. reflexivity. }
  destruct (negb (ok st1)).
  { inversion Hrun; subst.
    exists [(decoder (note_dispatch fn w), fn)]. split; assumption. }
  destruct (length (proto_ (decoder w1)) <? length (b :: bs))%nat.
  { apply (Hrest w1); auto. }
  destruct (SkipField (decoder w1)) as [d2|] eqn:Hskip.
  - apply SkipField_shorter in Hskip as [_ Hd2].
    apply (Hrest (with_decoder d2 w1)); auto.
  - inversion Hrun; subst.
    exists [(decoder (note_dispatch fn w), fn)]. split; assumption.
Qed.

(** After [Decode], on any buffer, a member the dispatched field numbers do
    not map to holds what it held before. *)
Lemma Decode_keeps_unseen_member (proto : list byte)
    (w w' : World Decoder) (st : Status) (m : Member) :
  Decode proto w = Some (st, w') ->
  exists seen : list Z,
    dispatched (decoder w') = dispatched (decoder w) ++ seen /\
    (existsb (field_targets m) seen = false ->
     load m (handler w') = load m (handler w)).
Proof.
  unfold Decode. destruct (handler_set (decoder w)).
  - intros Hrun. apply Decode_loop_is_pass in Hrun as [calls [Hpass Hseen]].
    exists (map snd calls). split; [exact Hseen|].
    intros Hnone. rewrite Hpass. simpl. apply decode_pass_frame.
    rewrite <- Hnone. clear. induction calls as [|c calls IH]; simpl;
      [reflexivity|rewrite IH; reflexivity].
  - intros Hrun. inversion Hrun; subst. exists []. rewrite app_nil_r.
    split; reflexivity.
Qed.

End WireFacts.

(** * The fixed buffer and the program *)

(** The two value bytes of the buffer decode to the numbers the comments of
    the source give: 42 as an int32 and -13 as a zigzag sint32. *)
Lemma encoded_values :
  Wire.varint_decode [x2a] = Some (42, []) /\
  Wire.varint_decode [x19] = Some (25, []) /\
  to_int32 42 = 42 /\
  to_int32 (Wire.zigzag_decode 25) = -13.
Proof. repeat split; reflexivity. Qed.

(** C1: main constructs a decoder, registers a fresh handler and decodes
    the four bytes 0x08 0x2a 0x10 0x19; afterwards the handler holds
    test_int32 = 42 and test_sint32 = -13. *)
Theorem main_decodes_42_and_minus_13 :
  exists o : Outcome Wire.Decoder,
    main_wire = Some o /\
    test_int32 (handler (world o)) = 42 /\
    test_sint32 (handler (world o)) = -13.
Proof.
  destruct (Wire.Decode encoded_proto world_before_decode)
    as [[st w]|] eqn:Hrun; [|discriminate Hrun].
  vm_compute in Hrun. inversion Hrun; subst; clear Hrun.
  eexists. split; [reflexivity|]. split; reflexivity.
Qed.

(** C6, as the specification words it, fails: the buffer does not encode
    four fields.  It parses as a sequence of fields, and there are two. *)
Lemma encoded_proto_not_four_fields :
  option_map (@length Wire.Field) (Wire.fields encoded_proto) = Some 2%nat /\
  ~ (exists fs : list Wire.Field,
       Wire.fields encoded_proto = Some fs /\ length fs = 4%nat).
Proof.
  split; [reflexivity|].
  intros [fs [Hfs Hlen]]. vm_compute in Hfs. inversion Hfs; subst.
  discriminate Hlen.
Qed.

(** C6, amended: the buffer is four bytes that encode two fields, each one
    tag byte followed by one value byte: field 1 with value byte 0x2a and
    field 2 with value byte 0x19, both of the varint wire type. *)
Theorem encoded_proto_two_fields :
  length encoded_proto = 4%nat /\
  Wire.fields encoded_proto =
  Some [ {| Wire.number := 1; Wire.wire_type := Wire.kVarint;
            Wire.tag_bytes := [x08]; Wire.value_bytes := [x2a] |};
         {| Wire.number := 2; Wire.wire_type := Wire.kVarint;
            Wire.tag_bytes := [x10]; Wire.value_bytes := [x19] |} ].
Proof. split; reflexivity. Qed.

(** C7: in the decode pass over the fixed buffer each of the two members is
    stored to at most once (exactly once: 42 to test_int32, then -13 to
    test_sint32). *)
Theorem fixed_buffer_updates_once :
  exists (st : Status) (w : World Wire.Decoder),
    Wire.Decode encoded_proto world_before_decode = Some (st, w) /\
    stores w = [(m_test_int32, 42); (m_test_sint32, -13)] /\
    forall m : Member, (updates m (stores w) <= 1)%nat.
Proof.
  destruct (Wire.Decode encoded_proto world_before_decode)
    as [[st w]|] eqn:Hrun; [|discriminate Hrun].
  vm_compute in Hrun. inversion Hrun; subst; clear Hrun.
  do 2 eexists. split; [reflexivity|]. split; [reflexivity|].
  intros m. destruct m; unfold updates; simpl; lia.
Qed.

Section MainFacts.

Context {D : Type}.
Variable Decoder_new : D.
Variable set_handler : D -> D.
Variable Decode : list byte -> World D -> option (Status * World D).


(** C10: the pointer starts out null and main never assigns it, so the
    store of test_int32 + test_sint32 goes through a null pointer: it
    lands in no object, and the pointer is still null afterwards. *)
Theorem main_stores_through_null (st : Status) (w : World D) :
  Decode encoded_proto (world_at_decode Decoder_new set_handler)
  = Some (st, w) ->
  non_optimizable_pointer Globals_start = null /\
  pointee (non_optimizable_pointer Globals_start) = None /\
  exists o : Outcome D,
    main Decoder_new set_handler Decode Globals_start = Some o /\
    events o =
      [ev_BloatThisBinary;
       ev_store null
         (to_int32 (test_int32 (handler w) + test_sint32 (handler w)))] /\
    non_optimizable_pointer (globals o) = null /\
    handler (world o) = handler w /\
    stores (world o) = stores w.
Proof.
  intros Hrun. split; [reflexivity|]. split; [reflexivity|].
  unfold main. cbv zeta. rewrite Hrun. eexists. split; [reflexivity|].
  simpl. rewrite app_nil_r. repeat split.
Qed.

End MainFacts.

(** * Concrete instances *)

(** With the decoder of module [Wire], decoding goes on after a failed
    read: on a buffer whose field 1 has the wrong wire type and whose
    field 2 is well formed, test_int32 is put to zero, field 1 is stepped
    over, and field 2 is then read into test_sint32. *)
Lemma Decode_continues_after_failed_read :
  Wire.Decode [x0d; x01; x00; x00; x00; x10; x19] world_bad_field_1
  = Some (OK,
          {| decoder := {| Wire.handler_set := true; Wire.proto_ := [];
                           Wire.dispatched := [1; 2] |};
             handler := {| test_int32 := 0; test_sint32 := -13 |};
             stores := [(m_test_int32, 0); (m_test_sint32, -13)] |}).
Proof. reflexivity. Qed.

(** C2 at a concrete call: field 1 arrives with the fixed32 wire type, the
    read fails, and test_int32 goes from 7 to 0. *)
Lemma ProcessField_failed_read_zeroes_witness :
  fst (ProcessField 1 world_bad_field_1) = OK /\
  load m_test_int32 (handler (snd (ProcessField 1 world_bad_field_1))) = 0.
Proof.
  apply (ProcessField_failed_read_zeroes 1 m_test_int32 world_bad_field_1);
    reflexivity.
Defined.

(** C8 at a concrete call: field 1 of the fixed buffer leaves test_sint32
    as it was. *)
Lemma ProcessField_frame_witness :
  fst (ProcessField 1 world_before_decode_fixed) = OK /\
  load m_test_sint32 (handler (snd (ProcessField 1 world_before_decode_fixed)))
  = load m_test_sint32 (handler world_before_decode_fixed).
Proof.
  apply (ProcessField_frame 1 m_test_sint32 world_before_decode_fixed);
    reflexivity.
Defined.

(** C5 at a concrete pass: the calls carry the field numbers 2 and 9, and
    test_int32 is still zero. *)
Lemma fresh_handler_zero_until_seen_witness :
  test_int32 TestDecodeHandler_new = 0 /\
  test_sint32 TestDecodeHandler_new = 0 /\
  load m_test_int32
    (decode_pass [(decoder world_before_decode_fixed, 2);
                  (decoder world_bad_field_1, 9)]
       TestDecodeHandler_new) = 0.
Proof.
  apply (fresh_handler_zero_until_seen
           [(decoder world_before_decode_fixed, 2);
            (decoder world_bad_field_1, 9)] m_test_int32);
    reflexivity.
Defined.



(** C10 with the decoder of module [Wire]: the value 42 + (-13) = 29 is
    stored through the null pointer. *)
Lemma main_stores_through_null_witness :
  non_optimizable_pointer Globals_start = null /\
  pointee (non_optimizable_pointer Globals_start) = None /\
  exists o : Outcome Wire.Decoder,
    main_wire = Some o /\
    events o = [ev_BloatThisBinary; ev_store null 29] /\
    non_optimizable_pointer (globals o) = null /\
    handler (world o) = {| test_int32 := 42; test_sint32 := -13 |} /\
    stores (world o) = [(m_test_int32, 42); (m_test_sint32, -13)].
Proof.
  apply (main_stores_through_null Wire.Decoder_new Wire.set_handler
           Wire.Decode OK
           {| decoder := {| Wire.handler_set := true; Wire.proto_ := [];
                            Wire.dispatched := [1; 2] |};
              handler := {| test_int32 := 42; test_sint32 := -13 |};
              stores := [(m_test_int32, 42); (m_test_sint32, -13)] |}).
  vm_compute. reflexivity.
Defined.


(** The decoder after the callback at a concrete call: past field 1 of the
    fixed buffer, two bytes are left. *)
Lemma ProcessField_one_read_witness :
  decoder (snd (ProcessField 1 world_before_decode_fixed))
  = Wire.with_proto [x10; x19] (decoder world_before_decode_fixed).
Proof.
  refine (eq_trans
            (ProcessField_one_read 1 m_test_int32
               world_before_decode_fixed _) _);
    reflexivity.
Defined.

(** The last field wins at a concrete pass: field 1 is read as 42, then
    field 3 arrives at a decoder that is before a field 1 of the wrong wire
    type, so its read fails and test_int32 ends up zero; the later field 2
    does not change that. *)
Lemma decode_pass_last_call_wins_witness :
  load m_test_int32
    (decode_pass
       ([(decoder world_before_decode_fixed, 1)]
        ++ (decoder world_bad_field_1, 3)
        :: [(decoder world_before_decode_fixed, 2)])
       TestDecodeHandler_new) = 0.
Proof.
  apply (decode_pass_last_call_wins
           [(decoder world_before_decode_fixed, 1)]
           [(decoder world_before_decode_fixed, 2)]
           (decoder world_bad_field_1) 3 m_test_int32 0
           TestDecodeHandler_new);
    reflexivity.
Defined.

(** C3 at a concrete call: field 1 of the fixed buffer is read with
    ReadInt32, which leaves the decoder before the bytes 0x10 0x19 and 42
    in test_int32; test_sint32 is as it was. *)
Lemma ProcessField_fixed_mapping_witness :
  decoder (snd (ProcessField 1 world_before_decode_fixed))
  = Wire.with_proto [x10; x19] (decoder world_before_decode_fixed) /\
  test_int32 (handler (snd (ProcessField 1 world_before_decode_fixed)))
  = 42 /\
  test_sint32 (handler (snd (ProcessField 1 world_before_decode_fixed)))
  = test_sint32 (handler world_before_decode_fixed).
Proof.
  exact (proj1 (ProcessField_fixed_mapping 1 world_before_decode_fixed)
           (or_introl eq_refl)).
Defined.
